(** * prefix_tools: prefix sums and difference arrays

    A shallow embedding of [prefix_tools.hpp] (namespace [prefix_tools]):
    the class templates [PrefixSum1D<T>] and [DiffArray1D<T>].

    Modelling conventions.
    - The template parameter [T] is a type with [T{}], [operator+] and
      [operator-] (class [Numeric]); the laws of an additive group are a
      separate class ([AdditiveGroup]) used only where a proof needs them.
    - [std::vector<T>] is [list T].  [std::size_t] is [nat]: sizes and
      indices are those of vectors that exist, below the wrap-around of
      [std::size_t].  The one sum the caller can push over the top is
      [n_ + 1] in [reset]; module [SizeT] writes its wrap-around out and
      says where the two readings of [reset] agree.  The tests' [int] and
      [long long] values are read in [Z].
    - [operator[]] of [std::vector] is unchecked.  A read or a write outside
      the vector is undefined behaviour; the embedding makes it visible by
      running every member function in a state-and-failure monad over the
      object, where [None] stands for an out-of-bounds access.
    - A [const] member function is written in the same monad as a mutating
      one, so that "leaves the object unchanged" is a statement to prove.
    - Arguments taken by [const &] ([values] of [build], [delta] of
      [range_add]) are passed as the values they designate at the call:
      the caller's object is not a part of the table being written.
    - Allocation ([assign], [resize]) always succeeds. *)

From stdpp Require Import base option list.
From Stdlib Require Import ZArith Lia.

Set Default Proof Using "Type*".

(** ** The element type *)

Class Numeric (T : Type) : Type := {
  zero : T;                 (* T{} *)
  plus : T -> T -> T;       (* operator+ *)
  minus : T -> T -> T       (* operator- *)
}.

Declare Scope num_scope.
Delimit Scope num_scope with num.
Infix "[+]" := plus (at level 50, left associativity) : num_scope.
Infix "[-]" := minus (at level 50, left associativity) : num_scope.
Local Open Scope num_scope.

(** The laws the header asks of "numeric-like" [T], phrased with the two
    operations the code uses. *)
Class AdditiveGroup (T : Type) `{Numeric T} : Prop := {
  plus_assoc : forall x y z : T, x [+] (y [+] z) = (x [+] y) [+] z;
  plus_comm : forall x y : T, x [+] y = y [+] x;
  plus_zero_l : forall x : T, zero [+] x = x;
  plus_minus : forall x y : T, (x [+] y) [-] y = x;
  minus_plus : forall x y : T, (x [-] y) [+] y = x
}.

(** ** Member functions as computations on the object *)

Definition M (St A : Type) : Type := St -> option (A * St).

Definition ret {St A : Type} (a : A) : M St A :=
  fun s => Some (a, s).

Definition bind {St A B : Type} (m : M St A) (f : A -> M St B) : M St B :=
  fun s => match m s with
           | Some (a, s') => f a s'
           | None => None
           end.

Definition get {St : Type} : M St St :=
  fun s => Some (s, s).

Definition put {St : Type} (s : St) : M St unit :=
  fun _ => Some (tt, s).

(** An access that may be out of bounds. *)
Definition lift {St A : Type} (o : option A) : M St A :=
  fun s => match o with
           | Some a => Some (a, s)
           | None => None
           end.

Notation "'let*' x ':=' m 'in' f" := (bind m (fun x => f))
  (at level 10, x pattern, m at level 100, f at level 200).

(** [v[i]] read. *)
Definition vec_read {T : Type} (v : list T) (i : nat) : option T :=
  v !! i.

(** [v[i] = x]. *)
Definition vec_write {T : Type} (v : list T) (i : nat) (x : T) : option (list T) :=
  if decide (i < length v) then Some (<[i:=x]> v) else None.

(** [for (std::size_t i = i0; i < i0 + k; ++i) body], with the local
    variables of the enclosing function threaded through as [l]. *)
Fixpoint for_loop {St L : Type} (body : nat -> L -> M St L) (i k : nat) (l : L) : M St L :=
  match k with
  | O => ret l
  | S k' => let* l' := body i l in for_loop body (S i) k' l'
  end.

(** ** PrefixSum1D *)

Module PrefixSum1D.

Record t (T : Type) : Type := Build { prefix_ : list T }.
Arguments Build {T} _.
Arguments prefix_ {T} _.

Section Methods.
Context {T : Type} `{Numeric T}.

(** [PrefixSum1D() = default], with [prefix_{}]. *)
Definition default : t T := Build [].

(** [prefix_.assign(values.size() + 1, T{});
     for (i = 0; i < values.size(); ++i)
       prefix_[i + 1] = prefix_[i] + values[i];] *)
Definition build (values : list T) : M (t T) unit :=
  let* _ := put (Build (replicate (length values + 1) zero)) in
  for_loop (fun i (_ : unit) =>
              let* self := get in
              let* p := lift (vec_read (prefix_ self) i) in
              let* v := lift (vec_read values i) in
              let* prefix' := lift (vec_write (prefix_ self) (i + 1) (p [+] v)) in
              put (Build prefix'))
           0 (length values) tt.

(** [explicit PrefixSum1D(const std::vector<T> &values) { build(values); }] *)
Definition construct (values : list T) : option (t T) :=
  snd <$> build values default.

(** [return prefix_[r] - prefix_[l];] *)
Definition range_sum (l r : nat) : M (t T) T :=
  let* self := get in
  let* pr := lift (vec_read (prefix_ self) r) in
  let* pl := lift (vec_read (prefix_ self) l) in
  ret (pr [-] pl).

(** [return prefix_.empty() ? 0 : (prefix_.size() - 1);] *)
Definition size : M (t T) nat :=
  let* self := get in
  ret (match prefix_ self with
       | [] => 0
       | _ :: _ => length (prefix_ self) - 1
       end).

(** [return prefix_;] *)
Definition prefix : M (t T) (list T) :=
  let* self := get in
  ret (prefix_ self).

End Methods.
End PrefixSum1D.

(** ** DiffArray1D *)

Module DiffArray1D.

Record t (T : Type) : Type := Build { n_ : nat; diff_ : list T }.
Arguments Build {T} _ _.
Arguments n_ {T} _.
Arguments diff_ {T} _.

Section Methods.
Context {T : Type} `{Numeric T}.

(** [DiffArray1D() = default], with [n_{0}] and [diff_{}]. *)
Definition default : t T := Build 0 [].

(** [n_ = n; diff_.assign(n_ + 1, T{});] *)
Definition reset (n : nat) : M (t T) unit :=
  let* self := get in
  let* _ := put (Build n (diff_ self)) in
  let* self := get in
  put (Build (n_ self) (replicate (n_ self + 1) zero)).

(** [explicit DiffArray1D(std::size_t n) { reset(n); }] *)
Definition construct (n : nat) : option (t T) :=
  snd <$> reset n default.

(** [diff_[l] = diff_[l] + delta;
     diff_[r] = diff_[r] - delta;] *)
Definition range_add (l r : nat) (delta : T) : M (t T) unit :=
  let* self := get in
  let* dl := lift (vec_read (diff_ self) l) in
  let* d1 := lift (vec_write (diff_ self) l (dl [+] delta)) in
  let* _ := put (Build (n_ self) d1) in
  let* self := get in
  let* dr := lift (vec_read (diff_ self) r) in
  let* d2 := lift (vec_write (diff_ self) r (dr [-] delta)) in
  put (Build (n_ self) d2).

(** [std::vector<T> out; out.resize(n_, T{});
     T cur{};
     for (i = 0; i < n_; ++i) { cur = cur + diff_[i]; out[i] = cur; }
     return out;] *)
Definition build : M (t T) (list T) :=
  let* self := get in
  let out := replicate (n_ self) zero in
  let cur := zero in
  let* (out, cur) :=
    for_loop (fun i '(out, cur) =>
                let* self := get in
                let* d := lift (vec_read (diff_ self) i) in
                let cur := cur [+] d in
                let* out := lift (vec_write out i cur) in
                ret (out, cur))
             0 (n_ self) (out, cur) in
  ret out.

(** [return n_;] *)
Definition size : M (t T) nat :=
  let* self := get in
  ret (n_ self).

(** [return diff_;] *)
Definition diff : M (t T) (list T) :=
  let* self := get in
  ret (diff_ self).

End Methods.
End DiffArray1D.

(** ** Instances of the element type *)

#[export] Instance Z_Numeric : Numeric Z :=
  {| zero := 0%Z; plus := Z.add; minus := Z.sub |}.

#[export] Instance Z_AdditiveGroup : AdditiveGroup Z.
Proof. split; simpl; intros; lia. Qed.


(** ** Reference models *)

Section Reference.
Context {T : Type} `{Numeric T}.

(** The running totals of [vs] started from [p]:
    [p + v0], [(p + v0) + v1], ... *)
Fixpoint scan_from (p : T) (vs : list T) : list T :=
  match vs with
  | [] => []
  | v :: vs' => (p [+] v) :: scan_from (p [+] v) vs'
  end.

(** The sum of a sequence, as an independent reduction. *)
Definition sum_of (vs : list T) : T :=
  foldr plus zero vs.

(** A [PrefixSum1D] that went through [build]. *)
Definition built (s : PrefixSum1D.t T) : Prop :=
  exists values s0, PrefixSum1D.build values s0 = Some (tt, s).

End Reference.

(** One call [range_add(l, r, v)]. *)
Record range_update (T : Type) : Type :=
  Update { upd_l : nat; upd_r : nat; upd_v : T }.
Arguments Update {T} _ _ _.
Arguments upd_l {T} _.
Arguments upd_r {T} _.
Arguments upd_v {T} _.

Section DiffReference.
Context {T : Type} `{Numeric T}.

(** The precondition of [range_add] on an array of size [n]. *)
Definition valid_update (n : nat) (u : range_update T) : Prop :=
  upd_l u <= upd_r u /\ upd_r u <= n.

(** Index [i] lies in the half-open interval of [u]. *)
Definition covers (i : nat) (u : range_update T) : Prop :=
  upd_l u <= i /\ i < upd_r u.

#[export] Instance covers_dec (i : nat) (u : range_update T) : Decision (covers i u).
Proof. unfold covers. apply _. Defined.

(** Brute force: at each index, the sum of [v] over the updates whose
    interval contains the index. *)
Definition brute_force (n : nat) (ups : list (range_update T)) : list T :=
  (fun i => sum_of (upd_v <$> filter (covers i) ups)) <$> seq 0 n.

(** The calls [range_add(l, r, v)] of [ups], first to last. *)
Fixpoint apply_updates (ups : list (range_update T)) : M (DiffArray1D.t T) unit :=
  match ups with
  | [] => ret tt
  | u :: ups' =>
      let* _ := DiffArray1D.range_add (upd_l u) (upd_r u) (upd_v u) in
      apply_updates ups'
  end.

(** The delta table has its [n_ + 1] slots, the sentinel included. *)
Definition sized (d : DiffArray1D.t T) : Prop :=
  length (DiffArray1D.diff_ d) = DiffArray1D.n_ d + 1.

(** The states an object can be in: default construction, then any
    number of [reset] and of [range_add] calls that returned. *)
Inductive reachable : DiffArray1D.t T -> Prop :=
  | reach_default : reachable DiffArray1D.default
  | reach_reset n d d' :
      reachable d -> DiffArray1D.reset n d = Some (tt, d') -> reachable d'
  | reach_range_add l r v d d' :
      reachable d -> DiffArray1D.range_add l r v d = Some (tt, d') -> reachable d'.

End DiffReference.

(** ** The scenario of [test_diff_array_basic]

    [DiffArray1D<int> d(5); d.range_add(1, 4, 3); d.range_add(0, 2, 2);
     d.build()], run on the object under construction. *)


(** The table of [test_prefix_sum_basic], built from [{1, 2, 3, 4, 5}]. *)
Definition table_1_to_5 : PrefixSum1D.t Z :=
  PrefixSum1D.Build [0; 1; 3; 6; 10; 15]%Z.

(** A size-5 object after [range_add(1, 4, 3)]. *)
Definition after_one_update : DiffArray1D.t Z :=
  DiffArray1D.Build 5 [0; 3; 0; 0; -3; 0]%Z.

(** ** Slot-wise reading of [range_add] *)

Section SlotModel.
Context {T : Type} `{Numeric T}.

(** The value of slot [k] after [range_add(l, r, v)], from its value [x]
    before: the write to slot [l] comes first, the write to slot [r]
    second. *)
Definition bump (l r : nat) (v : T) (k : nat) (x : T) : T :=
  let y := if decide (k = l) then x [+] v else x in
  if decide (k = r) then y [-] v else y.

(** [T{} - v]. *)
Definition neg (v : T) : T := zero [-] v.

(** One call [range_add(i, i + 1, values[i])] for each index [i], counted
    from [k]. *)
Fixpoint point_updates_from (k : nat) (values : list T) : list (range_update T) :=
  match values with
  | [] => []
  | v :: values' => Update k (k + 1) v :: point_updates_from (S k) values'
  end.

Definition point_updates (values : list T) : list (range_update T) :=
  point_updates_from 0 values.

End SlotModel.

(** ** [reset] with the arithmetic of [std::size_t] *)

(** The largest [std::size_t], for a 64-bit [std::size_t]. *)
Definition SIZE_MAX : nat := 2 ^ 64 - 1.
Arguments SIZE_MAX : simpl never.

(** [n + 1] computed in [std::size_t]. *)
Definition size_succ (n : nat) : nat :=
  if decide (n = SIZE_MAX) then 0 else n + 1.

Module SizeT.

Section Methods.
Context {T : Type} `{Numeric T}.

(** [n_ = n; diff_.assign(n_ + 1, T{});] *)
Definition reset (n : nat) : M (DiffArray1D.t T) unit :=
  let* self := get in
  let* _ := put (DiffArray1D.Build n (DiffArray1D.diff_ self)) in
  let* self := get in
  put (DiffArray1D.Build (DiffArray1D.n_ self)
         (replicate (size_succ (DiffArray1D.n_ self)) zero)).

(** [explicit DiffArray1D(std::size_t n) { reset(n); }] *)
Definition construct (n : nat) : option (DiffArray1D.t T) :=
  snd <$> reset n DiffArray1D.default.

(** The states an object can be in when [reset] is given any
    [std::size_t]. *)
Inductive reachable : DiffArray1D.t T -> Prop :=
  | reach_default : reachable DiffArray1D.default
  | reach_reset n d d' :
      n <= SIZE_MAX -> reachable d -> reset n d = Some (tt, d') -> reachable d'
  | reach_range_add l r v d d' :
      reachable d -> DiffArray1D.range_add l r v d = Some (tt, d') -> reachable d'.

End Methods.
End SizeT.

(** * Proofs *)

Ltac run := unfold bind, get, put, lift, ret, vec_read, vec_write in *; simpl in *.

(** ** Arithmetic in an additive group *)

Section GroupFacts.
Context {T : Type} `{AdditiveGroup T}.

Lemma plus_zero_r (x : T) : x [+] zero = x.
Proof. rewrite plus_comm. apply plus_zero_l. Qed.

Lemma minus_zero_r (x : T) : x [-] zero = x.
Proof. rewrite <- (plus_zero_r x) at 1. apply plus_minus. Qed.

Lemma minus_diag (x : T) : x [-] x = zero.
Proof. rewrite <- (plus_zero_l x) at 1. apply plus_minus. Qed.

Lemma plus_cancel_r (x y z : T) : x [+] z = y [+] z -> x = y.
Proof.
  intros E. rewrite <- (plus_minus x z), <- (plus_minus y z). now rewrite E.
Qed.

Lemma minus_chain (a b c : T) : (b [-] a) [+] (c [-] b) = c [-] a.
Proof.
  apply (plus_cancel_r _ _ a). rewrite minus_plus.
  rewrite (plus_comm (b [-] a)), <- plus_assoc, minus_plus.
  apply minus_plus.
Qed.

Lemma minus_swap (a b : T) : (a [-] b) [+] (b [-] a) = zero.
Proof. rewrite minus_chain. apply minus_diag. Qed.

Lemma minus_opp (a b : T) : a [-] b = zero [-] (b [-] a).
Proof.
  apply (plus_cancel_r _ _ (b [-] a)). now rewrite minus_swap, minus_plus.
Qed.

Lemma plus_shuffle (x y z : T) : (x [+] y) [+] z = (x [+] z) [+] y.
Proof. now rewrite <- !plus_assoc, (plus_comm y z). Qed.

End GroupFacts.

(** ** Running totals *)

Section ScanFacts.
Context {T : Type} `{Numeric T}.

Lemma length_scan_from (vs : list T) (p : T) :
  length (scan_from p vs) = length vs.
Proof. revert p. induction vs as [|v vs IH]; intros p; simpl; auto. Qed.

(** Each entry of the table is the previous one plus the input value. *)
Lemma scan_from_step (vs : list T) (p : T) (i : nat) (v : T) :
  vs !! i = Some v ->
  exists q, (p :: scan_from p vs) !! i = Some q /\
            (p :: scan_from p vs) !! (i + 1) = Some (q [+] v).
Proof.
  revert p i. induction vs as [|w vs IH]; intros p i Hv; [discriminate|].
  destruct i as [|i]; simpl in *.
  - injection Hv as ->. eauto.
  - apply (IH (p [+] w)) in Hv. exact Hv.
Qed.

(** The last entry is the left-to-right accumulation of the input. *)
Lemma scan_from_last (vs : list T) (p : T) :
  (p :: scan_from p vs) !! length vs = Some (fold_left plus vs p).
Proof. revert p. induction vs as [|v vs IH]; intros p; simpl; auto. Qed.

Lemma scan_from_lookup (vs : list T) (p : T) (i : nat) :
  i < length vs ->
  scan_from p vs !! i = Some (fold_left plus (take (S i) vs) p).
Proof.
  revert p i. induction vs as [|v vs IH]; intros p i Hi; simpl in *; [lia|].
  destruct i as [|i]; simpl.
  - destruct vs; reflexivity.
  - apply IH. lia.
Qed.

End ScanFacts.

Section ScanGroupFacts.
Context {T : Type} `{AdditiveGroup T}.

Lemma fold_left_plus_shift (vs : list T) (p v : T) :
  fold_left plus vs (p [+] v) = fold_left plus vs p [+] v.
Proof.
  revert p. induction vs as [|w vs IH]; intros p; simpl; [reflexivity|].
  now rewrite plus_shuffle, IH.
Qed.

Lemma fold_left_sum_of (vs : list T) (p : T) :
  fold_left plus vs p = p [+] sum_of vs.
Proof.
  revert p. induction vs as [|v vs IH]; intros p; simpl.
  - now rewrite plus_zero_r.
  - rewrite IH. unfold sum_of. now rewrite plus_assoc.
Qed.

Lemma sum_of_app (us vs : list T) :
  sum_of (us ++ vs) = sum_of us [+] sum_of vs.
Proof.
  unfold sum_of. induction us as [|u us IH]; simpl.
  - now rewrite plus_zero_l.
  - now rewrite IH, plus_assoc.
Qed.

Lemma scan_from_shift (vs : list T) (p v : T) :
  scan_from (p [+] v) vs = (fun x => v [+] x) <$> scan_from p vs.
Proof.
  revert p. induction vs as [|w vs IH]; intros p; simpl; [reflexivity|].
  rewrite plus_shuffle, IH. f_equal. apply plus_comm.
Qed.

(** Adding [v] to one entry adds [v] to the accumulation. *)
Lemma fold_left_insert_plus (vs : list T) (k : nat) (x v p : T) :
  vs !! k = Some x ->
  fold_left plus (<[k := x [+] v]> vs) p = fold_left plus vs p [+] v.
Proof.
  revert k p. induction vs as [|w vs IH]; intros k p Hk; [discriminate|].
  destruct k as [|k]; simpl in *.
  - injection Hk as ->. now rewrite plus_assoc, fold_left_plus_shift.
  - now apply IH.
Qed.

(** Subtracting [v] from one entry is undone by adding [v] at the end. *)
Lemma fold_left_insert_minus (vs : list T) (k : nat) (x v p : T) :
  vs !! k = Some x ->
  fold_left plus (<[k := x [-] v]> vs) p [+] v = fold_left plus vs p.
Proof.
  intros Hk.
  assert (Hlt : k < length vs) by (apply lookup_lt_Some in Hk; exact Hk).
  rewrite <- (fold_left_insert_plus _ k (x [-] v)).
  - rewrite list_insert_insert_eq, minus_plus. now rewrite list_insert_id.
  - now apply list_lookup_insert_eq.
Qed.

End ScanGroupFacts.

(** ** PrefixSum1D *)

Section PrefixSumFacts.
Context {T : Type} `{Numeric T}.
Import PrefixSum1D.

(** The loop of [build], entered at index [length done] with the table
    filled up to there. *)
Lemma build_loop (values done vs pre : list T) (p : T) :
  values = done ++ vs ->
  length pre = length done ->
  for_loop (fun i (_ : unit) =>
              let* self := get in
              let* p := lift (vec_read (prefix_ self) i) in
              let* v := lift (vec_read values i) in
              let* prefix' := lift (vec_write (prefix_ self) (i + 1) (p [+] v)) in
              put (Build prefix'))
           (length done) (length vs) tt
           (Build (pre ++ p :: replicate (length vs) zero))
  = Some (tt, Build (pre ++ p :: scan_from p vs)).
Proof.
  revert done pre p. induction vs as [|v vs IH]; intros done pre p Hv Hlen.
  - reflexivity.
  - cbn [for_loop length replicate scan_from].
    unfold bind at 1. unfold bind at 1. unfold get at 1. cbn [prefix_].
    unfold bind at 1. unfold lift at 1, vec_read at 1.
    assert (E1 : (pre ++ p :: zero :: replicate (length vs) zero) !! length done = Some p).
    { rewrite lookup_app_r by lia. now replace (length done - length pre) with 0 by lia. }
    rewrite E1.
    unfold bind at 1. unfold lift at 1, vec_read at 1.
    assert (E2 : values !! length done = Some v).
    { rewrite Hv, lookup_app_r by lia. now rewrite Nat.sub_diag. }
    rewrite E2.
    unfold bind at 1. unfold lift at 1, vec_write at 1.
    rewrite decide_True by (rewrite length_app; simpl; lia).
    unfold put at 1.
    assert (E3 : <[length done + 1 := p [+] v]> (pre ++ p :: zero :: replicate (length vs) zero)
                 = (pre ++ [p]) ++ (p [+] v) :: replicate (length vs) zero).
    { rewrite insert_app_r_alt by lia.
      replace (length done + 1 - length pre) with 1 by lia.
      now rewrite <- app_assoc. }
    rewrite E3.
    specialize (IH (done ++ [v]) (pre ++ [p]) (p [+] v)).
    rewrite !length_app in IH. simpl in IH.
    replace (S (length done)) with (length done + 1) by lia.
    rewrite IH.
    + now rewrite <- app_assoc.
    + now rewrite <- app_assoc.
    + lia.
Qed.

(** [build] always returns, and leaves the table [0, v0, v0 + v1, ...]
    whatever the object held before. *)
Lemma build_returns (values : list T) (s : t T) :
  build values s = Some (tt, Build (zero :: scan_from zero values)).
Proof.
  unfold build. unfold bind at 1, put at 1.
  replace (length values + 1) with (S (length values)) by lia.
  apply (build_loop values [] values [] zero); reflexivity.
Qed.

Lemma range_sum_in_bounds (s : t T) (l r : nat) (pl pr : T) :
  prefix_ s !! l = Some pl ->
  prefix_ s !! r = Some pr ->
  range_sum l r s = Some (pr [-] pl, s).
Proof. intros Hl Hr. unfold range_sum. run. now rewrite Hr, Hl. Qed.

Lemma size_built (values : list T) :
  size (Build (zero :: scan_from zero values))
  = Some (length values, Build (zero :: scan_from zero values)).
Proof. unfold size. run. now rewrite length_scan_from, Nat.sub_0_r. Qed.

Lemma built_table (s : t T) :
  built s -> exists values, s = Build (zero :: scan_from zero values).
Proof.
  intros (values & s0 & Hb). rewrite build_returns in Hb.
  exists values. congruence.
Qed.

Lemma built_lookup (values : list T) (i : nat) :
  i <= length values ->
  is_Some ((zero :: scan_from zero values) !! i).
Proof.
  intros Hi. apply lookup_lt_is_Some. simpl. rewrite length_scan_from. lia.
Qed.

End PrefixSumFacts.

Section PrefixSumGroupFacts.
Context {T : Type} `{AdditiveGroup T}.
Import PrefixSum1D.

(** On a built object every [range_sum(l, r)] with both indices at most
    [size()] reads inside the table and leaves the object as it is. *)
Lemma range_sum_built (s : t T) (n l r : nat) :
  built s -> size s = Some (n, s) -> l <= n -> r <= n ->
  exists pl pr, prefix_ s !! l = Some pl /\ prefix_ s !! r = Some pr /\
                range_sum l r s = Some (pr [-] pl, s).
Proof.
  intros Hb Hn Hl Hr. destruct (built_table s Hb) as [values ->].
  rewrite size_built in Hn. injection Hn as <-.
  destruct (built_lookup values l Hl) as [pl Hpl].
  destruct (built_lookup values r Hr) as [pr Hpr].
  exists pl, pr. split; [exact Hpl|]. split; [exact Hpr|].
  now apply range_sum_in_bounds.
Qed.

(** The empty range of a built object sums to zero. *)
Lemma range_sum_empty_range_built (s : t T) (n i : nat) :
  built s -> size s = Some (n, s) -> i <= n ->
  range_sum i i s = Some (zero, s).
Proof.
  intros Hb Hn Hi.
  destruct (range_sum_built s n i i Hb Hn Hi Hi) as (pl & pr & Hl & Hr & E).
  rewrite E. replace pr with pl by congruence. now rewrite minus_diag.
Qed.

(** C1. For every input sequence [values] of length n and every prior
    state, [build(values)] returns and replaces the state by a table of
    length n + 1 with [prefix[0] = 0] and
    [prefix[i + 1] = prefix[i] + values[i]] for every i < n; afterwards
    [range_sum(0, size())] is the sum of all elements of [values]. *)
Theorem build_prefix_table (values : list T) (s : t T) :
  exists s',
    build values s = Some (tt, s') /\
    (forall s0, build values s0 = Some (tt, s')) /\
    length (prefix_ s') = length values + 1 /\
    prefix_ s' !! 0 = Some zero /\
    (forall i v, values !! i = Some v ->
       exists p, prefix_ s' !! i = Some p /\
                 prefix_ s' !! (i + 1) = Some (p [+] v)) /\
    (let* n := size in range_sum 0 n) s' = Some (sum_of values, s').
Proof.
  exists (Build (zero :: scan_from zero values)).
  split; [apply build_returns|].
  split; [intros s0; apply build_returns|].
  split; [simpl; rewrite length_scan_from; lia|].
  split; [reflexivity|].
  split; [intros i v Hv; now apply scan_from_step|].
  unfold bind at 1. rewrite size_built.
  rewrite (range_sum_in_bounds _ 0 (length values) zero (fold_left plus values zero)).
  - now rewrite minus_zero_r, fold_left_sum_of, plus_zero_l.
  - reflexivity.
  - apply scan_from_last.
Qed.

(** C3. On a built object, for all [a <= b <= c <= size()],
    [range_sum(a, c) = range_sum(a, b) + range_sum(b, c)]. *)
Theorem range_sum_decomposition (s : t T) (n a b c : nat) :
  built s -> size s = Some (n, s) -> a <= b -> b <= c -> c <= n ->
  exists x y z,
    range_sum a b s = Some (x, s) /\
    range_sum b c s = Some (y, s) /\
    range_sum a c s = Some (z, s) /\
    z = x [+] y.
Proof.
  intros Hb Hn Hab Hbc Hc.
  destruct (range_sum_built s n a b Hb Hn) as (pa & pb & Ha & Hpb & Eab); [lia..|].
  destruct (range_sum_built s n b c Hb Hn) as (pb' & pc & Hpb' & Hpc & Ebc); [lia..|].
  destruct (range_sum_built s n a c Hb Hn) as (pa' & pc' & Ha' & Hpc' & Eac); [lia..|].
  replace pb' with pb in * by congruence.
  replace pa' with pa in * by congruence.
  replace pc' with pc in * by congruence.
  exists (pb [-] pa), (pc [-] pb), (pc [-] pa).
  repeat split; try assumption. symmetry. apply minus_chain.
Qed.

(** C10. On a built object, for all [l <= r <= size()], the swapped call
    [range_sum(r, l)] reads inside the table and returns the additive
    inverse of [range_sum(l, r)]. *)
Theorem range_sum_swapped (s : t T) (n l r : nat) :
  built s -> size s = Some (n, s) -> l <= r -> r <= n ->
  exists x y,
    range_sum l r s = Some (x, s) /\
    range_sum r l s = Some (y, s) /\
    y [+] x = zero /\
    y = zero [-] x.
Proof.
  intros Hb Hn Hlr Hr.
  destruct (range_sum_built s n l r Hb Hn) as (pl & pr & Hl & Hpr & Elr); [lia..|].
  destruct (range_sum_built s n r l Hb Hn) as (pr' & pl' & Hpr' & Hl' & Erl); [lia..|].
  replace pr' with pr in * by congruence.
  replace pl' with pl in * by congruence.
  exists (pr [-] pl), (pl [-] pr).
  repeat split; try assumption.
  - apply minus_swap.
  - apply minus_opp.
Qed.

(** C7, as the code has it. A default-constructed object and one built
    from the empty sequence both report [size() = 0]; [prefix()] of the
    first is the empty table, [prefix()] of the second is the one-entry
    table [[0]], on which [range_sum(0, 0)] returns 0. *)
Theorem never_built_and_empty_build :
  exists s_empty : t T,
    construct [] = Some s_empty /\
    size (T:=T) default = Some (0, default) /\
    size s_empty = Some (0, s_empty) /\
    prefix (T:=T) default = Some ([], default) /\
    prefix s_empty = Some ([zero], s_empty) /\
    range_sum 0 0 s_empty = Some (zero, s_empty).
Proof.
  exists (Build [zero]). repeat split.
  unfold range_sum. run. now rewrite minus_diag.
Qed.

End PrefixSumGroupFacts.

Section PrefixSumNeverBuilt.
Context {T : Type} `{Numeric T}.
Import PrefixSum1D.

(** C9, at the never-built object. [size()] is 0, so [i = 0] satisfies
    [0 <= i <= size()], and [range_sum(0, 0)] reads [prefix_[0]] of an
    empty vector. *)
Theorem range_sum_never_built_out_of_bounds :
  size (T:=T) default = Some (0, default) /\
  range_sum (T:=T) 0 0 default = None.
Proof. split; reflexivity. Qed.

End PrefixSumNeverBuilt.

(** ** Instances at [Z] *)

Lemma built_table_1_to_5 : built table_1_to_5.
Proof. exists [1; 2; 3; 4; 5]%Z, PrefixSum1D.default. reflexivity. Qed.

(** [build_prefix_table] at [{1, 2, 3, 4, 5}]: the total is 15. *)
Lemma build_prefix_table_witness :
  exists s',
    PrefixSum1D.build [1; 2; 3; 4; 5]%Z PrefixSum1D.default = Some (tt, s') /\
    (forall s0, PrefixSum1D.build [1; 2; 3; 4; 5]%Z s0 = Some (tt, s')) /\
    length (PrefixSum1D.prefix_ s') = 5 + 1 /\
    PrefixSum1D.prefix_ s' !! 0 = Some 0%Z /\
    (forall i v, [1; 2; 3; 4; 5]%Z !! i = Some v ->
       exists p, PrefixSum1D.prefix_ s' !! i = Some p /\
                 PrefixSum1D.prefix_ s' !! (i + 1) = Some (p + v)%Z) /\
    (let* n := PrefixSum1D.size in PrefixSum1D.range_sum 0 n) s' = Some (15%Z, s').
Proof. exact (build_prefix_table [1; 2; 3; 4; 5]%Z PrefixSum1D.default). Defined.

(** [range_sum_decomposition] at [a = 1], [b = 3], [c = 5]. *)
Lemma range_sum_decomposition_witness :
  exists x y z : Z,
    PrefixSum1D.range_sum 1 3 table_1_to_5 = Some (x, table_1_to_5) /\
    PrefixSum1D.range_sum 3 5 table_1_to_5 = Some (y, table_1_to_5) /\
    PrefixSum1D.range_sum 1 5 table_1_to_5 = Some (z, table_1_to_5) /\
    z = (x + y)%Z.
Proof.
  refine (range_sum_decomposition table_1_to_5 5 1 3 5 built_table_1_to_5 _ _ _ _);
    [reflexivity | lia | lia | lia].
Defined.

(** [range_sum_swapped] at [l = 1], [r = 4]. *)
Lemma range_sum_swapped_witness :
  exists x y : Z,
    PrefixSum1D.range_sum 1 4 table_1_to_5 = Some (x, table_1_to_5) /\
    PrefixSum1D.range_sum 4 1 table_1_to_5 = Some (y, table_1_to_5) /\
    (y + x)%Z = 0%Z /\
    y = (0 - x)%Z.
Proof.
  refine (range_sum_swapped table_1_to_5 5 1 4 built_table_1_to_5 _ _ _);
    [reflexivity | lia | lia].
Defined.

(** [never_built_and_empty_build] at [Z]. *)
Lemma never_built_and_empty_build_witness :
  exists s_empty : PrefixSum1D.t Z,
    PrefixSum1D.construct [] = Some s_empty /\
    PrefixSum1D.size (T:=Z) PrefixSum1D.default = Some (0, PrefixSum1D.default) /\
    PrefixSum1D.size s_empty = Some (0, s_empty) /\
    PrefixSum1D.prefix (T:=Z) PrefixSum1D.default = Some ([], PrefixSum1D.default) /\
    PrefixSum1D.prefix s_empty = Some ([0%Z], s_empty) /\
    PrefixSum1D.range_sum 0 0 s_empty = Some (0%Z, s_empty).
Proof. exact (never_built_and_empty_build (T:=Z)). Defined.

(** C7, as stated, fails: the never-built object does not expose the
    one-entry table, and its [range_sum(0, 0)] does not return 0. *)
Lemma never_built_is_not_empty_build :
  ~ (PrefixSum1D.size (T:=Z) PrefixSum1D.default = Some (0, PrefixSum1D.default) /\
     PrefixSum1D.prefix (T:=Z) PrefixSum1D.default = Some ([0%Z], PrefixSum1D.default) /\
     PrefixSum1D.range_sum (T:=Z) 0 0 PrefixSum1D.default = Some (0%Z, PrefixSum1D.default)).
Proof. intros (_ & Hp & _). discriminate Hp. Qed.

(** ** DiffArray1D *)

Section DiffArrayFacts.
Context {T : Type} `{Numeric T}.
Import DiffArray1D.

Lemma reset_returns (n : nat) (d : t T) :
  reset n d = Some (tt, Build n (replicate (n + 1) zero)).
Proof. reflexivity. Qed.

(** [range_add] returns exactly when both slots exist; it then writes
    slot [l], and after that slot [r]. *)
Lemma range_add_in_bounds (d : t T) (l r : nat) (v dl dr : T) :
  diff_ d !! l = Some dl ->
  <[l := dl [+] v]> (diff_ d) !! r = Some dr ->
  range_add l r v d
  = Some (tt, Build (n_ d) (<[r := dr [-] v]> (<[l := dl [+] v]> (diff_ d)))).
Proof.
  intros Hl Hr. unfold range_add. run. rewrite Hl.
  rewrite decide_True by (now apply lookup_lt_Some in Hl).
  simpl. rewrite Hr.
  rewrite decide_True by (now apply lookup_lt_Some in Hr).
  reflexivity.
Qed.

Lemma range_add_inv (d d' : t T) (l r : nat) (v : T) :
  range_add l r v d = Some (tt, d') ->
  exists dl dr,
    diff_ d !! l = Some dl /\
    <[l := dl [+] v]> (diff_ d) !! r = Some dr /\
    d' = Build (n_ d) (<[r := dr [-] v]> (<[l := dl [+] v]> (diff_ d))).
Proof.
  unfold range_add. run.
  destruct (diff_ d !! l) as [dl|] eqn:Hl; [|discriminate].
  destruct (decide (l < length (diff_ d))); [|discriminate]. simpl.
  destruct (<[l := dl [+] v]> (diff_ d) !! r) as [dr|] eqn:Hr; [|discriminate].
  destruct (decide (r < length (<[l := dl [+] v]> (diff_ d)))); [|discriminate].
  intros E. injection E as <-. eauto.
Qed.

Lemma range_add_sized (d d' : t T) (l r : nat) (v : T) :
  sized d -> range_add l r v d = Some (tt, d') -> sized d'.
Proof.
  unfold sized. intros Hs Hr.
  apply range_add_inv in Hr as (dl & dr & _ & _ & ->). simpl.
  now rewrite !length_insert.
Qed.

(** Every state of an object is the default one or has its sentinel. *)
Lemma reachable_sized (d : t T) :
  reachable d -> d = default \/ sized d.
Proof.
  induction 1 as [|n d d' _ _ Hr|l r v d d' _ IH Hr].
  - now left.
  - right. rewrite reset_returns in Hr. injection Hr as <-.
    unfold sized. simpl. now rewrite length_replicate.
  - destruct IH as [->|Hs].
    + discriminate Hr.
    + right. eapply range_add_sized; eauto.
Qed.

Lemma reachable_bound (d : t T) :
  reachable d -> n_ d <= length (diff_ d).
Proof.
  intros Hd. destruct (reachable_sized d Hd) as [->|Hs]; [simpl; lia|].
  unfold sized in Hs. lia.
Qed.

(** The loop of [build], entered at index [length done]. *)
Lemma diff_build_loop (d : t T) (done vs rest outdone : list T) (cur : T) :
  diff_ d = done ++ vs ++ rest ->
  length outdone = length done ->
  for_loop (fun i '(out, cur) =>
              let* self := get in
              let* x := lift (vec_read (diff_ self) i) in
              let cur := cur [+] x in
              let* out := lift (vec_write out i cur) in
              ret (out, cur))
           (length done) (length vs)
           (outdone ++ replicate (length vs) zero, cur) d
  = Some ((outdone ++ scan_from cur vs, fold_left plus vs cur), d).
Proof.
  revert done outdone cur. induction vs as [|x vs IH]; intros done outdone cur Hd Hlen.
  - reflexivity.
  - cbn [for_loop length replicate scan_from fold_left].
    unfold bind at 1. unfold bind at 1. unfold get at 1.
    unfold bind at 1. unfold lift at 1, vec_read at 1.
    assert (E1 : diff_ d !! length done = Some x).
    { rewrite Hd, lookup_app_r by lia. now rewrite Nat.sub_diag. }
    rewrite E1.
    unfold bind at 1. unfold lift at 1, vec_write at 1.
    rewrite decide_True by (rewrite length_app; simpl; lia).
    unfold ret at 1.
    assert (E2 : <[length done := cur [+] x]> (outdone ++ zero :: replicate (length vs) zero)
                 = (outdone ++ [cur [+] x]) ++ replicate (length vs) zero).
    { rewrite insert_app_r_alt by lia.
      replace (length done - length outdone) with 0 by lia.
      now rewrite <- app_assoc. }
    rewrite E2.
    specialize (IH (done ++ [x]) (outdone ++ [cur [+] x]) (cur [+] x)).
    rewrite !length_app in IH. simpl in IH.
    replace (S (length done)) with (length done + 1) by lia.
    rewrite IH.
    + now rewrite <- app_assoc.
    + now rewrite Hd, <- app_assoc.
    + lia.
Qed.

(** [build] returns the running totals of the first [n_] slots and the
    object it was called on. *)
Lemma diff_build_returns (d : t T) :
  n_ d <= length (diff_ d) ->
  build d = Some (scan_from zero (take (n_ d) (diff_ d)), d).
Proof.
  intros Hn. unfold build. unfold bind at 1, get at 1. unfold bind at 1.
  pose proof (diff_build_loop d [] (take (n_ d) (diff_ d)) (drop (n_ d) (diff_ d)) [] zero) as L.
  rewrite length_take, Nat.min_l in L by exact Hn. simpl in L.
  rewrite L; [reflexivity| |reflexivity].
  now rewrite take_drop.
Qed.

End DiffArrayFacts.

Section DiffArrayGroupFacts.
Context {T : Type} `{AdditiveGroup T}.
Import DiffArray1D.

(** The accumulation over the first [i + 1] slots after one
    [range_add(l, r, v)] with [l <= r]: [v] more inside [l, r), the same
    outside. *)
Lemma fold_left_range_add (L : list T) (l r i : nat) (v dl dr : T) :
  l <= r ->
  L !! l = Some dl ->
  <[l := dl [+] v]> L !! r = Some dr ->
  fold_left plus (take (S i) (<[r := dr [-] v]> (<[l := dl [+] v]> L))) zero
  = if decide (l <= i /\ i < r)
    then fold_left plus (take (S i) L) zero [+] v
    else fold_left plus (take (S i) L) zero.
Proof.
  intros Hlr Hl Hr.
  assert (Hin : l <= i -> fold_left plus (take (S i) (<[l := dl [+] v]> L)) zero
                          = fold_left plus (take (S i) L) zero [+] v).
  { intros Hli. rewrite take_insert_lt by lia.
    apply fold_left_insert_plus. rewrite lookup_take_lt by lia. exact Hl. }
  destruct (decide (l <= i /\ i < r)) as [[Hli Hir]|Hout].
  - rewrite take_insert_ge by lia. now apply Hin.
  - destruct (decide (i < l)) as [Hil|Hli].
    + now rewrite !take_insert_ge by lia.
    + assert (Hri : r <= i) by lia.
      apply (plus_cancel_r _ _ v).
      rewrite take_insert_lt by lia.
      rewrite fold_left_insert_minus.
      * apply Hin. lia.
      * rewrite lookup_take_lt by lia. exact Hr.
Qed.

(** On an object with its sentinel, [range_add(l, r, v)] within the
    precondition returns, and moves the output of [build] by [v] on
    [l, r) and nowhere else. *)
Lemma range_add_build (d : t T) (l r : nat) (v : T) :
  sized d -> l <= r -> r <= n_ d ->
  exists d',
    range_add l r v d = Some (tt, d') /\
    sized d' /\
    n_ d' = n_ d /\
    forall i, i < n_ d ->
      scan_from zero (take (n_ d) (diff_ d')) !! i
      = (fun x => if decide (l <= i /\ i < r) then x [+] v else x)
          <$> scan_from zero (take (n_ d) (diff_ d)) !! i.
Proof.
  intros Hs Hlr Hr. unfold sized in Hs.
  destruct (lookup_lt_is_Some_2 (diff_ d) l) as [dl Hl]; [lia|].
  destruct (lookup_lt_is_Some_2 (<[l := dl [+] v]> (diff_ d)) r) as [dr Hdr];
    [rewrite length_insert; lia|].
  eexists. split; [exact (range_add_in_bounds d l r v dl dr Hl Hdr)|].
  split; [unfold sized; simpl; rewrite !length_insert; exact Hs|].
  split; [reflexivity|].
  intros i Hi. simpl.
  rewrite !scan_from_lookup by (rewrite length_take, ?length_insert; lia).
  rewrite !take_take, !Nat.min_l by lia. simpl.
  rewrite (fold_left_range_add (diff_ d) l r i v dl dr Hlr Hl Hdr).
  now destruct (decide (l <= i /\ i < r)).
Qed.

Lemma scan_from_zeros (n : nat) :
  scan_from zero (replicate n (zero : T)) = replicate n zero.
Proof.
  induction n as [|n IH]; simpl; [reflexivity|].
  now rewrite plus_zero_l, IH.
Qed.

Lemma brute_force_nil (n : nat) :
  brute_force n ([] : list (range_update T)) = replicate n zero.
Proof.
  unfold brute_force. rewrite <- (length_seq n 0) at 2.
  now apply const_fmap.
Qed.

Lemma length_brute_force (n : nat) (ups : list (range_update T)) :
  length (brute_force n ups) = n.
Proof. unfold brute_force. now rewrite length_fmap, length_seq. Qed.

Lemma brute_force_lookup (n : nat) (ups : list (range_update T)) (i : nat) :
  i < n ->
  brute_force n ups !! i = Some (sum_of (upd_v <$> filter (covers i) ups)).
Proof.
  intros Hi. unfold brute_force.
  now rewrite list_lookup_fmap, lookup_seq_lt by exact Hi.
Qed.

Lemma brute_force_snoc (n : nat) (ups : list (range_update T)) (u : range_update T) (i : nat) :
  i < n ->
  brute_force n (ups ++ [u]) !! i
  = (fun x => if decide (upd_l u <= i /\ i < upd_r u) then x [+] upd_v u else x)
      <$> brute_force n ups !! i.
Proof.
  intros Hi. rewrite !brute_force_lookup by exact Hi. simpl.
  rewrite filter_app, fmap_app, sum_of_app. f_equal.
  destruct (decide (upd_l u <= i /\ i < upd_r u)) as [Hc|Hc].
  - rewrite filter_cons_True by exact Hc. cbn. now rewrite !plus_zero_r.
  - rewrite filter_cons_False by exact Hc. cbn. now rewrite plus_zero_r.
Qed.

(** The calls of [ups] on an object whose output is the brute-force
    value of the calls made so far. *)
Lemma apply_updates_brute_force (n : nat) (ups done : list (range_update T)) (d : t T) :
  sized d -> n_ d = n ->
  Forall (valid_update n) ups ->
  scan_from zero (take n (diff_ d)) = brute_force n done ->
  exists d',
    apply_updates ups d = Some (tt, d') /\
    sized d' /\ n_ d' = n /\
    scan_from zero (take n (diff_ d')) = brute_force n (done ++ ups).
Proof.
  revert done d. induction ups as [|u ups IH]; intros done d Hs Hn Hv Hout.
  - exists d. rewrite app_nil_r. repeat split; assumption.
  - apply Forall_cons in Hv as [[Hlr Hr] Hv]. subst n.
    destruct (range_add_build d (upd_l u) (upd_r u) (upd_v u) Hs Hlr Hr)
      as (d1 & Hadd & Hs1 & Hn1 & Hpt).
    destruct (IH (done ++ [u]) d1 Hs1 Hn1) as (d' & Hrun & Hs' & Hn' & Hout').
    + exact Hv.
    + apply list_eq. intros i.
      destruct (decide (i < n_ d)) as [Hi|Hi].
      * now rewrite Hpt, brute_force_snoc, Hout by exact Hi.
      * rewrite !lookup_ge_None_2; [reflexivity| |].
        -- rewrite length_brute_force. lia.
        -- rewrite length_scan_from, length_take. lia.
    + exists d'. simpl. unfold bind at 1. rewrite Hadd.
      split; [exact Hrun|]. split; [exact Hs'|]. split; [exact Hn'|].
      now rewrite <- app_assoc in Hout'.
Qed.

End DiffArrayGroupFacts.

Section DiffArrayClaims.
Context {T : Type} `{Numeric T}.
Import DiffArray1D.

(** On an object with its sentinel, [range_add(l, r, v)] with
    [l <= r <= size()] stays inside the table: it adds [v] to slot [l] and
    then subtracts [v] from slot [r], and touches nothing else. *)
Lemma range_add_sized_returns (d : t T) (l r : nat) (v : T) :
  sized d -> l <= r -> r <= n_ d ->
  exists dl dr,
    diff_ d !! l = Some dl /\
    <[l := dl [+] v]> (diff_ d) !! r = Some dr /\
    range_add l r v d
    = Some (tt, Build (n_ d) (<[r := dr [-] v]> (<[l := dl [+] v]> (diff_ d)))).
Proof.
  intros Hs Hlr Hr. unfold sized in Hs.
  destruct (lookup_lt_is_Some_2 (diff_ d) l) as [dl Hl]; [lia|].
  destruct (lookup_lt_is_Some_2 (<[l := dl [+] v]> (diff_ d)) r) as [dr Hdr];
    [rewrite length_insert; lia|].
  exists dl, dr. split; [exact Hl|]. split; [exact Hdr|].
  now apply range_add_in_bounds.
Qed.

(** C6, at the default-constructed object. It is a state of the public
    interface with [size() = 0], so [l = r = 0] satisfies
    [0 <= l <= r <= size()], and [range_add(0, 0, v)] reads [diff_[0]] of
    an empty vector. *)
Theorem range_add_default_out_of_bounds (v : T) :
  reachable (default (T:=T)) /\
  size (T:=T) default = Some (0, default) /\
  range_add 0 0 v default = None.
Proof. split; [constructor|]. split; reflexivity. Qed.

(** With [n_ + 1] read in [nat]: from every prior state, [reset(n)] (and
    so the size constructor) returns, sets [size()] to [n] and leaves a
    delta table of exactly [n + 1] entries, all zero, whatever was
    accumulated before. *)
Theorem reset_reinitializes (n : nat) (d : t T) :
  exists d',
    reset n d = Some (tt, d') /\
    (forall d0, reset n d0 = Some (tt, d')) /\
    construct n = Some d' /\
    size d' = Some (n, d') /\
    length (diff_ d') = n + 1 /\
    (forall i, i < n + 1 -> diff_ d' !! i = Some zero) /\
    diff d' = Some (replicate (n + 1) zero, d').
Proof.
  exists (Build n (replicate (n + 1) zero)).
  split; [apply reset_returns|].
  split; [intros d0; apply reset_returns|].
  split; [reflexivity|].
  split; [reflexivity|].
  split; [simpl; apply length_replicate|].
  split; [|reflexivity].
  intros i Hi. simpl. now apply lookup_replicate_2.
Qed.

(** C5. In every state of an object, [build()] returns and leaves the
    delta table and the size as they were: a second [build()] returns the
    same output, and a [build()] before a [range_add], or between a
    [range_add] and a later [build()], changes nothing of what they do. *)
Theorem build_is_pure_read (d : t T) :
  reachable d ->
  exists out,
    build d = Some (out, d) /\
    (let* a := build in let* b := build in ret (a, b)) d = Some ((out, out), d) /\
    forall l r v,
      (let* _ := build in range_add l r v) d = range_add l r v d /\
      (let* _ := build in let* _ := range_add l r v in build) d
      = (let* _ := range_add l r v in build) d /\
      (let* _ := range_add l r v in let* _ := build in build) d
      = (let* _ := range_add l r v in build) d.
Proof.
  intros Hd. pose proof (diff_build_returns d (reachable_bound d Hd)) as Hb.
  exists (scan_from zero (take (n_ d) (diff_ d))).
  split; [exact Hb|].
  split; [unfold bind; now rewrite Hb, Hb|].
  intros l r v.
  split; [unfold bind at 1; now rewrite Hb|].
  split; [unfold bind at 1; now rewrite Hb|].
  unfold bind. destruct (range_add l r v d) as [[[] d']|] eqn:Hr; [|reflexivity].
  assert (Hd' : reachable d') by (eapply reach_range_add; eauto).
  pose proof (diff_build_returns d' (reachable_bound d' Hd')) as Hb'.
  rewrite Hb'. exact Hb'.
Qed.

End DiffArrayClaims.

Section DiffArrayGroupClaims.
Context {T : Type} `{AdditiveGroup T}.
Import DiffArray1D.

(** On an object of size n with its sentinel, in any state of the delta
    table, [range_add(0, n, v)] followed by [build()] returns the earlier
    output of [build()] with [v] added to every element; the decrement is
    written to slot n, and no value of slot n changes what [build()]
    returns. *)
Theorem full_range_add_superposition (d : t T) (v : T) :
  sized d ->
  exists out d' dl dr,
    build d = Some (out, d) /\
    length out = n_ d /\
    range_add 0 (n_ d) v d = Some (tt, d') /\
    build d' = Some ((fun x => v [+] x) <$> out, d') /\
    diff_ d !! 0 = Some dl /\
    <[0 := dl [+] v]> (diff_ d) !! n_ d = Some dr /\
    d' = Build (n_ d) (<[n_ d := dr [-] v]> (<[0 := dl [+] v]> (diff_ d))) /\
    forall x,
      fst <$> build (Build (n_ d) (<[n_ d := x]> (diff_ d')))
      = Some ((fun x => v [+] x) <$> out).
Proof.
  intros Hs.
  destruct (range_add_build d 0 (n_ d) v Hs) as (d' & Hadd & Hs' & Hn' & Hpt); [lia..|].
  destruct (range_add_inv d d' 0 (n_ d) v Hadd) as (dl & dr & Hl & Hr & Hd').
  assert (Hout : scan_from zero (take (n_ d) (diff_ d'))
                 = (fun x => v [+] x) <$> scan_from zero (take (n_ d) (diff_ d))).
  { apply list_eq. intros i. rewrite list_lookup_fmap.
    destruct (decide (i < n_ d)) as [Hi|Hi].
    - rewrite Hpt by exact Hi.
      destruct (scan_from zero (take (n_ d) (diff_ d)) !! i); simpl; [|reflexivity].
      rewrite decide_True by lia. now rewrite plus_comm.
    - rewrite !lookup_ge_None_2; [reflexivity| |];
        rewrite length_scan_from, length_take; lia. }
  unfold sized in Hs, Hs'.
  exists (scan_from zero (take (n_ d) (diff_ d))), d', dl, dr.
  split; [apply diff_build_returns; lia|].
  split; [rewrite length_scan_from, length_take; lia|].
  split; [exact Hadd|].
  split; [rewrite <- Hout, <- Hn'; apply diff_build_returns; lia|].
  split; [exact Hl|]. split; [exact Hr|]. split; [exact Hd'|].
  intros x. rewrite diff_build_returns by (simpl; rewrite length_insert; lia).
  simpl. now rewrite take_insert_ge, Hout by lia.
Qed.

End DiffArrayGroupClaims.


(** ** Instances at [Z], continued *)

Lemma reachable_after_one_update : reachable after_one_update.
Proof.
  apply (reach_range_add 1 4 3%Z (DiffArray1D.Build 5 [0; 0; 0; 0; 0; 0]%Z));
    [|reflexivity].
  apply (reach_reset 5 DiffArray1D.default); [constructor|reflexivity].
Qed.

(** [build_is_pure_read] on the object after one update. *)
Lemma build_is_pure_read_witness :
  exists out,
    DiffArray1D.build after_one_update = Some (out, after_one_update) /\
    (let* a := DiffArray1D.build in let* b := DiffArray1D.build in ret (a, b))
      after_one_update = Some ((out, out), after_one_update) /\
    forall l r v,
      (let* _ := DiffArray1D.build in DiffArray1D.range_add l r v) after_one_update
      = DiffArray1D.range_add l r v after_one_update /\
      (let* _ := DiffArray1D.build in
       let* _ := DiffArray1D.range_add l r v in DiffArray1D.build) after_one_update
      = (let* _ := DiffArray1D.range_add l r v in DiffArray1D.build) after_one_update /\
      (let* _ := DiffArray1D.range_add l r v in
       let* _ := DiffArray1D.build in DiffArray1D.build) after_one_update
      = (let* _ := DiffArray1D.range_add l r v in DiffArray1D.build) after_one_update.
Proof. exact (build_is_pure_read after_one_update reachable_after_one_update). Defined.

(** [full_range_add_superposition]: [range_add(0, 5, 7)] on the object
    after one update. *)
Lemma full_range_add_superposition_witness :
  sized after_one_update /\
  exists out d' dl dr,
    DiffArray1D.build after_one_update = Some (out, after_one_update) /\
    length out = 5 /\
    DiffArray1D.range_add 0 5 7%Z after_one_update = Some (tt, d') /\
    DiffArray1D.build d' = Some ((fun x => 7 + x)%Z <$> out, d') /\
    DiffArray1D.diff_ after_one_update !! 0 = Some dl /\
    <[0 := (dl + 7)%Z]> (DiffArray1D.diff_ after_one_update) !! 5 = Some dr /\
    d' = DiffArray1D.Build 5
           (<[5 := (dr - 7)%Z]> (<[0 := (dl + 7)%Z]> (DiffArray1D.diff_ after_one_update))) /\
    forall x,
      fst <$> DiffArray1D.build (DiffArray1D.Build 5 (<[5 := x]> (DiffArray1D.diff_ d')))
      = Some ((fun x => 7 + x)%Z <$> out).
Proof.
  split; [reflexivity|].
  exact (full_range_add_superposition after_one_update 7%Z eq_refl).
Defined.


(** * Further properties of PrefixSum1D *)

Section PrefixSumTable.
Context {T : Type} `{Numeric T}.
Import PrefixSum1D.

Lemma scan_from_app (us vs : list T) (p : T) :
  scan_from p (us ++ vs) = scan_from p us ++ scan_from (fold_left plus us p) vs.
Proof.
  revert p. induction us as [|u us IH]; intros p; simpl; [reflexivity|].
  now rewrite IH.
Qed.

(** Entry [i] of the built table is the accumulation of the first [i]
    input values. *)
Lemma table_lookup (values : list T) (i : nat) :
  i <= length values ->
  (zero :: scan_from zero values) !! i = Some (fold_left plus (take i values) zero).
Proof.
  intros Hi. destruct i as [|i]; [reflexivity|].
  simpl. apply scan_from_lookup. lia.
Qed.

Lemma table_lookup_None (values : list T) (i : nat) :
  length values < i -> (zero :: scan_from zero values) !! i = None.
Proof.
  intros Hi. apply lookup_ge_None_2. simpl. rewrite length_scan_from. lia.
Qed.

(** X3. On an object built from [values], [range_sum(l, r)] is an
    out-of-bounds access exactly when [l] or [r] exceeds [values.size()];
    the order of [l] and [r] plays no part. *)
Theorem range_sum_out_of_bounds_iff (values : list T) (s0 s : t T) (l r : nat) :
  build values s0 = Some (tt, s) ->
  range_sum l r s = None <-> (length values < l \/ length values < r).
Proof.
  intros Hb. rewrite build_returns in Hb. injection Hb as <-.
  unfold range_sum. run. split.
  - intros Hn.
    destruct (decide (r <= length values)) as [Hr|Hr]; [|lia].
    destruct (decide (l <= length values)) as [Hl|Hl]; [|lia].
    pose proof (table_lookup values r Hr) as Er.
    pose proof (table_lookup values l Hl) as El.
    simpl in Er, El. rewrite Er, El in Hn. discriminate Hn.
  - intros [Hl|Hr].
    + pose proof (table_lookup_None values l Hl) as El. simpl in El. rewrite El.
      now destruct (_ !! r).
    + pose proof (table_lookup_None values r Hr) as Er. simpl in Er. now rewrite Er.
Qed.

(** X5. Appending input values extends the table and keeps its old
    entries: the table built from [v1] is the first [v1.size() + 1]
    entries of the table built from [v1 ++ v2], and every [range_sum]
    with both indices at most [v1.size()] returns the same value on both
    objects. *)
Theorem build_append_extends (v1 v2 : list T) (s1 s12 : t T) (l r : nat) :
  construct v1 = Some s1 ->
  construct (v1 ++ v2) = Some s12 ->
  take (length v1 + 1) (prefix_ s12) = prefix_ s1 /\
  (l <= length v1 -> r <= length v1 ->
   fst <$> range_sum l r s12 = fst <$> range_sum l r s1).
Proof.
  unfold construct. rewrite !build_returns. simpl.
  intros E1 E12. injection E1 as <-. injection E12 as <-.
  assert (Ht : take (length v1 + 1) (zero :: scan_from zero (v1 ++ v2))
               = zero :: scan_from zero v1).
  { replace (length v1 + 1) with (S (length v1)) by lia. simpl.
    rewrite scan_from_app, take_app_length'; [reflexivity|].
    symmetry. apply length_scan_from. }
  split; [exact Ht|].
  intros Hl Hr. unfold range_sum. run.
  rewrite <- Ht.
  assert (Hk : forall k, k <= length v1 ->
            (zero :: scan_from zero (v1 ++ v2)) !! k
            = take (length v1 + 1) (zero :: scan_from zero (v1 ++ v2)) !! k).
  { intros k Hk. symmetry. apply lookup_take_lt. lia. }
  rewrite <- !Hk by assumption.
  destruct (_ !! r); [|reflexivity]. now destruct (_ !! l).
Qed.

End PrefixSumTable.

Section PrefixSumSlices.
Context {T : Type} `{AdditiveGroup T}.
Import PrefixSum1D.

Lemma fold_left_plus_app (us vs : list T) (p : T) :
  fold_left plus (us ++ vs) p = fold_left plus us p [+] sum_of vs.
Proof. now rewrite fold_left_app, fold_left_sum_of. Qed.

Lemma plus_minus_l (x y : T) : (x [+] y) [-] x = y.
Proof. rewrite plus_comm. apply plus_minus. Qed.

(** X1. On an object built from [values], [range_sum(l, r)] with
    [l <= r <= values.size()] returns the sum of the slice
    [values[l], ..., values[r - 1]] and leaves the object unchanged. *)
Theorem range_sum_is_slice_sum (values : list T) (s0 s : t T) (l r : nat) :
  build values s0 = Some (tt, s) ->
  l <= r -> r <= length values ->
  range_sum l r s = Some (sum_of (take (r - l) (drop l values)), s).
Proof.
  intros Hb Hlr Hr. rewrite build_returns in Hb. injection Hb as <-.
  rewrite (range_sum_in_bounds _ l r
             (fold_left plus (take l values) zero)
             (fold_left plus (take r values) zero)).
  - replace r with (l + (r - l)) at 1 by lia.
    now rewrite <- take_take_drop, fold_left_plus_app, plus_minus_l.
  - apply table_lookup. lia.
  - apply table_lookup. lia.
Qed.

(** X2. Reading back the input: on an object built from [values],
    [range_sum(i, i + 1)] returns [values[i]] for every index of the
    input. *)
Theorem range_sum_single_element (values : list T) (s0 s : t T) (i : nat) (v : T) :
  build values s0 = Some (tt, s) ->
  values !! i = Some v ->
  range_sum i (i + 1) s = Some (v, s).
Proof.
  intros Hb Hv. rewrite build_returns in Hb. injection Hb as <-.
  destruct (scan_from_step values zero i v Hv) as (q & Hq & Hq1).
  rewrite (range_sum_in_bounds (Build (zero :: scan_from zero values))
             i (i + 1) q (q [+] v) Hq Hq1).
  now rewrite plus_minus_l.
Qed.

(** X4. The constructor from [values] returns an object with
    [size() = values.size()] whose [prefix()] has [values.size() + 1]
    entries, entry [i] being the sum of the first [i] input values. *)
Theorem construct_prefix_sums (values : list T) :
  exists s tbl,
    construct values = Some s /\
    size s = Some (length values, s) /\
    prefix s = Some (tbl, s) /\
    length tbl = length values + 1 /\
    forall i, i <= length values -> tbl !! i = Some (sum_of (take i values)).
Proof.
  exists (Build (zero :: scan_from zero values)), (zero :: scan_from zero values).
  split; [unfold construct; now rewrite build_returns|].
  split; [apply size_built|].
  split; [reflexivity|].
  split; [simpl; rewrite length_scan_from; lia|].
  intros i Hi. rewrite table_lookup by exact Hi.
  now rewrite fold_left_sum_of, plus_zero_l.
Qed.

End PrefixSumSlices.

(** * Further properties of DiffArray1D *)

Section DiffArraySlots.
Context {T : Type} `{Numeric T}.
Import DiffArray1D.

(** [range_add] returns exactly when both slots exist, and then rewrites
    every slot by [bump]. *)
Lemma range_add_imap (d : t T) (l r : nat) (v : T) :
  l < length (diff_ d) -> r < length (diff_ d) ->
  range_add l r v d = Some (tt, Build (n_ d) (imap (bump l r v) (diff_ d))).
Proof.
  intros Hl Hr.
  destruct (lookup_lt_is_Some_2 (diff_ d) l Hl) as [dl Hdl].
  destruct (lookup_lt_is_Some_2 (<[l := dl [+] v]> (diff_ d)) r) as [dr Hdr];
    [now rewrite length_insert|].
  rewrite (range_add_in_bounds d l r v dl dr Hdl Hdr). do 3 f_equal.
  apply list_eq. intros k. rewrite list_lookup_imap.
  rewrite !list_lookup_insert, length_insert.
  rewrite list_lookup_insert in Hdr.
  destruct (diff_ d !! k) as [x|] eqn:Hk; simpl.
  - unfold bump.
    destruct (decide (k = l)) as [Hkl|Hkl]; destruct (decide (k = r)) as [Hkr|Hkr].
    + subst l r. rewrite !decide_True in * by tauto. congruence.
    + subst l. rewrite decide_False by (intros [? _]; congruence).
      rewrite decide_True by tauto. congruence.
    + subst r. rewrite decide_True by tauto.
      rewrite decide_False in Hdr by (intros [? _]; congruence). congruence.
    + rewrite !decide_False by (intros [? _]; congruence). reflexivity.
  - apply lookup_ge_None_1 in Hk.
    rewrite !decide_False by (intros [-> ?]; lia). reflexivity.
Qed.

Lemma range_add_None (d : t T) (l r : nat) (v : T) :
  length (diff_ d) <= l \/ length (diff_ d) <= r ->
  range_add l r v d = None.
Proof.
  intros Hb. destruct (range_add l r v d) as [[[] d']|] eqn:E; [|reflexivity].
  apply range_add_inv in E as (dl & dr & Hl & Hr & _).
  apply lookup_lt_Some in Hl, Hr. rewrite length_insert in Hr. lia.
Qed.

(** Two calls in a row. *)
Lemma range_add_twice (d : t T) (l1 r1 l2 r2 : nat) (v1 v2 : T) :
  (let* _ := range_add l1 r1 v1 in range_add l2 r2 v2) d
  = if decide ((l1 < length (diff_ d) /\ r1 < length (diff_ d)) /\
               (l2 < length (diff_ d) /\ r2 < length (diff_ d)))
    then Some (tt, Build (n_ d)
                     (imap (fun k x => bump l2 r2 v2 k (bump l1 r1 v1 k x)) (diff_ d)))
    else None.
Proof.
  unfold bind.
  destruct (decide (l1 < length (diff_ d) /\ r1 < length (diff_ d))) as [[Hl1 Hr1]|H1].
  - rewrite (range_add_imap d l1 r1 v1 Hl1 Hr1).
    destruct (decide (l2 < length (diff_ d) /\ r2 < length (diff_ d))) as [[Hl2 Hr2]|H2].
    + rewrite decide_True by tauto.
      rewrite range_add_imap by (simpl; now rewrite length_imap).
      simpl. do 3 f_equal. apply list_eq. intros k.
      rewrite !list_lookup_imap. now destruct (diff_ d !! k).
    + rewrite decide_False by tauto.
      apply range_add_None. simpl. rewrite length_imap. lia.
  - rewrite decide_False by tauto.
    rewrite range_add_None by lia. reflexivity.
Qed.

End DiffArraySlots.

Section DiffArrayStates.
Context {T : Type} `{Numeric T}.
Import DiffArray1D.

(** With [n_ + 1] read in [nat]: every state of an object is the
    default-constructed one or has a delta table of exactly [n_ + 1]
    slots, and a [range_add] that returns changes neither [size()] nor the
    number of slots. *)
Theorem sentinel_invariant (d : t T) :
  reachable d ->
  (d = default \/ length (diff_ d) = n_ d + 1) /\
  forall l r v d',
    range_add l r v d = Some (tt, d') ->
    size d' = Some (n_ d, d') /\ length (diff_ d') = length (diff_ d).
Proof.
  intros Hd. split; [exact (reachable_sized d Hd)|].
  intros l r v d' Hr.
  apply range_add_inv in Hr as (dl & dr & _ & _ & ->).
  split; [reflexivity|]. simpl. now rewrite !length_insert.
Qed.

(** X7. On an object with its [n_ + 1] slots, [range_add(l, r, v)] is an
    out-of-bounds access exactly when [l] or [r] exceeds [size()]; whether
    [l <= r] plays no part. *)
Theorem range_add_out_of_bounds_iff (d : t T) (l r : nat) (v : T) :
  sized d ->
  range_add l r v d = None <-> (n_ d < l \/ n_ d < r).
Proof.
  unfold sized. intros Hs. split.
  - intros Hn.
    destruct (decide (l <= n_ d)) as [Hl|Hl]; [|lia].
    destruct (decide (r <= n_ d)) as [Hr|Hr]; [|lia].
    rewrite range_add_imap in Hn by lia. discriminate Hn.
  - intros Hb. apply range_add_None. lia.
Qed.

(** X15. On every object whose delta table has at least [size()] slots,
    [build()] returns a vector of [size()] elements with
    [out[0] = T{} + diff_[0]] and [out[i + 1] = out[i] + diff_[i + 1]],
    and leaves the object unchanged. *)
Theorem diff_build_recurrence (d : t T) :
  n_ d <= length (diff_ d) ->
  exists out,
    build d = Some (out, d) /\
    length out = n_ d /\
    (forall x, 0 < n_ d -> diff_ d !! 0 = Some x -> out !! 0 = Some (zero [+] x)) /\
    (forall i x, i + 1 < n_ d -> diff_ d !! (i + 1) = Some x ->
       exists y, out !! i = Some y /\ out !! (i + 1) = Some (y [+] x)).
Proof.
  intros Hn.
  exists (scan_from zero (take (n_ d) (diff_ d))).
  split; [now apply diff_build_returns|].
  split; [rewrite length_scan_from, length_take; lia|].
  split.
  - intros x Hpos Hx.
    destruct (scan_from_step (take (n_ d) (diff_ d)) zero 0 x) as (q & Hq & Hq1).
    + rewrite lookup_take_lt by lia. exact Hx.
    + simpl in Hq, Hq1. injection Hq as <-. exact Hq1.
  - intros i x Hi Hx.
    destruct (scan_from_step (take (n_ d) (diff_ d)) zero (i + 1) x) as (q & Hq & Hq1).
    + rewrite lookup_take_lt by lia. exact Hx.
    + exists q. replace (i + 1) with (S i) in Hq by lia.
      replace (i + 1 + 1) with (S (i + 1)) in Hq1 by lia.
      simpl in Hq, Hq1. split; assumption.
Qed.

(** X16. The two classes compute the same running totals: in every state
    of a [DiffArray1D], the output of [build()] is the table that
    [PrefixSum1D] builds from the first [size()] deltas, without its
    leading zero. *)
Theorem diff_build_is_prefix_table (d : t T) :
  reachable d ->
  exists out,
    build d = Some (out, d) /\
    PrefixSum1D.construct (take (n_ d) (diff_ d))
    = Some (PrefixSum1D.Build (zero :: out)).
Proof.
  intros Hd. exists (scan_from zero (take (n_ d) (diff_ d))).
  split; [apply diff_build_returns; now apply reachable_bound|].
  unfold PrefixSum1D.construct. now rewrite build_returns.
Qed.

End DiffArrayStates.

Section DiffArrayAlgebra.
Context {T : Type} `{AdditiveGroup T}.
Import DiffArray1D.

Lemma minus_as_plus (x v : T) : x [-] v = x [+] neg v.
Proof.
  unfold neg. apply (plus_cancel_r _ _ v).
  now rewrite minus_plus, <- plus_assoc, minus_plus, plus_zero_r.
Qed.

Lemma plus_neg (x v : T) : (x [+] v) [+] (zero [-] v) = x.
Proof.
  now rewrite <- plus_assoc, (plus_comm v), minus_plus, plus_zero_r.
Qed.

Lemma minus_neg (x v : T) : x [-] (zero [-] v) = x [+] v.
Proof.
  apply (plus_cancel_r _ _ (zero [-] v)). now rewrite minus_plus, plus_neg.
Qed.

Lemma minus_minus (x a b : T) : (x [-] a) [-] b = x [-] (a [+] b).
Proof.
  apply (plus_cancel_r _ _ (a [+] b)).
  now rewrite minus_plus, (plus_comm a b), plus_assoc, !minus_plus.
Qed.

Lemma plus_shuffle_2_1 (x p1 p2 q : T) :
  ((x [+] p1) [+] p2) [+] q = ((x [+] q) [+] p1) [+] p2.
Proof. now rewrite (plus_shuffle _ p2 q), (plus_shuffle x p1 q). Qed.

Lemma plus_shuffle_1_2 (x p q1 q2 : T) :
  ((x [+] p) [+] q1) [+] q2 = ((x [+] q1) [+] q2) [+] p.
Proof. symmetry. apply plus_shuffle_2_1. Qed.

Lemma plus_shuffle_2_2 (x p1 p2 q1 q2 : T) :
  (((x [+] p1) [+] p2) [+] q1) [+] q2 = (((x [+] q1) [+] q2) [+] p1) [+] p2.
Proof.
  now rewrite (plus_shuffle_1_2 (x [+] p1) p2 q1 q2), (plus_shuffle_1_2 x p1 q1 q2).
Qed.

(** Slot-wise equality of two tables written from the same one. *)
Lemma imap_bump_ext (f g : nat -> T -> T) (d : t T) :
  (forall k x, f k x = g k x) ->
  Some (tt, Build (n_ d) (imap f (diff_ d)))
  = Some (tt, Build (n_ d) (imap g (diff_ d))).
Proof. intros E. do 3 f_equal. apply imap_ext. intros k x _. apply E. Qed.

End DiffArrayAlgebra.

Section DiffArrayComposition.
Context {T : Type} `{AdditiveGroup T}.
Import DiffArray1D.

Ltac bump_cases :=
  unfold bump; simpl;
  repeat match goal with
         | |- context [decide (?a = ?b)] => destruct (decide (a = b)); try congruence
         end.

(** X9. A call on an empty interval changes nothing: on an object with
    its [n_ + 1] slots, [range_add(l, l, v)] with [l <= size()] returns
    and leaves the delta table as it was. *)
Theorem range_add_empty_interval (d : t T) (l : nat) (v : T) :
  sized d -> l <= n_ d ->
  range_add l l v d = Some (tt, d).
Proof.
  unfold sized. intros Hs Hl. rewrite range_add_imap by lia.
  destruct d as [n L]. simpl. do 3 f_equal.
  apply list_eq. intros k. rewrite list_lookup_imap.
  destruct (L !! k) as [x|]; [|reflexivity]. simpl. f_equal.
  bump_cases. apply plus_minus.
Qed.

(** X10. Two calls commute: made in either order they fail together or
    leave the same object. *)
Theorem range_add_commute (d : t T) (l1 r1 l2 r2 : nat) (v1 v2 : T) :
  (let* _ := range_add l1 r1 v1 in range_add l2 r2 v2) d
  = (let* _ := range_add l2 r2 v2 in range_add l1 r1 v1) d.
Proof.
  rewrite !range_add_twice.
  destruct (decide ((l1 < length (diff_ d) /\ r1 < length (diff_ d)) /\
                    (l2 < length (diff_ d) /\ r2 < length (diff_ d)))) as [Hb|Hb].
  - rewrite decide_True by tauto. apply imap_bump_ext. intros k x.
    bump_cases; rewrite ?minus_as_plus;
      first [ reflexivity | apply plus_shuffle | apply plus_shuffle_2_1
            | apply plus_shuffle_1_2 | apply plus_shuffle_2_2 ].
  - rewrite decide_False by tauto. reflexivity.
Qed.

(** X11. Adjacent intervals merge: when slot [m] exists,
    [range_add(l, m, v)] followed by [range_add(m, r, v)] does what
    [range_add(l, r, v)] does. *)
Theorem range_add_adjacent (d : t T) (l m r : nat) (v : T) :
  sized d -> m <= n_ d ->
  (let* _ := range_add l m v in range_add m r v) d = range_add l r v d.
Proof.
  unfold sized. intros Hs Hm. rewrite range_add_twice.
  destruct (decide (l < length (diff_ d) /\ r < length (diff_ d))) as [[Hl Hr]|Hb].
  - rewrite decide_True by (repeat split; lia).
    rewrite (range_add_imap d l r v Hl Hr). apply imap_bump_ext. intros k x.
    bump_cases; now rewrite ?minus_plus.
  - rewrite decide_False by tauto. symmetry. apply range_add_None. lia.
Qed.

(** X12. Two calls on the same interval add up: [range_add(l, r, v1)]
    followed by [range_add(l, r, v2)] does what [range_add(l, r, v1 + v2)]
    does. *)
Theorem range_add_same_interval (d : t T) (l r : nat) (v1 v2 : T) :
  (let* _ := range_add l r v1 in range_add l r v2) d
  = range_add l r (v1 [+] v2) d.
Proof.
  rewrite range_add_twice.
  destruct (decide (l < length (diff_ d) /\ r < length (diff_ d))) as [[Hl Hr]|Hb].
  - rewrite decide_True by tauto.
    rewrite (range_add_imap d l r (v1 [+] v2) Hl Hr). apply imap_bump_ext. intros k x.
    bump_cases;
      first [ now rewrite !plus_minus | apply minus_minus | now rewrite plus_assoc ].
  - rewrite decide_False by tauto. symmetry. apply range_add_None. lia.
Qed.

(** X13. A call is undone by the call with the negated value: on an
    object with its [n_ + 1] slots and [l, r <= size()],
    [range_add(l, r, v)] followed by [range_add(l, r, T{} - v)] returns
    and leaves the delta table as it was. *)
Theorem range_add_undo (d : t T) (l r : nat) (v : T) :
  sized d -> l <= n_ d -> r <= n_ d ->
  (let* _ := range_add l r v in range_add l r (zero [-] v)) d = Some (tt, d).
Proof.
  unfold sized. intros Hs Hl Hr. rewrite range_add_twice.
  rewrite decide_True by (repeat split; lia).
  destruct d as [n L]. simpl. do 3 f_equal.
  apply list_eq. intros k. rewrite list_lookup_imap.
  destruct (L !! k) as [x|]; [|reflexivity]. simpl. f_equal.
  bump_cases;
    first [ now rewrite !plus_minus | apply plus_neg
          | rewrite minus_neg; apply minus_plus ].
Qed.

(** X8. The order of the two indices is not checked: [range_add(l, r, v)]
    does what [range_add(r, l, T{} - v)] does, so on an object with its
    [n_ + 1] slots a call with [r <= l <= size()] returns and lowers the
    output of [build()] by [v] on [r, l) and nowhere else. *)
Theorem range_add_reversed (d : t T) (l r : nat) (v : T) :
  sized d -> r <= l -> l <= n_ d ->
  exists d' out out',
    range_add l r v d = Some (tt, d') /\
    range_add r l (zero [-] v) d = Some (tt, d') /\
    build d = Some (out, d) /\
    build d' = Some (out', d') /\
    forall i, i < n_ d ->
      out' !! i = (fun x => if decide (r <= i /\ i < l) then x [-] v else x) <$> out !! i.
Proof.
  intros Hs Hrl Hl.
  destruct (range_add_build d r l (zero [-] v) Hs Hrl Hl) as (d' & Hadd & Hs' & Hn' & Hpt).
  exists d', (scan_from zero (take (n_ d) (diff_ d))),
         (scan_from zero (take (n_ d) (diff_ d'))).
  unfold sized in Hs, Hs'.
  split.
  - rewrite <- Hadd. rewrite !range_add_imap by lia.
    apply imap_bump_ext. intros k x.
    bump_cases;
      first [ now rewrite !plus_minus | symmetry; apply minus_neg
            | apply minus_as_plus ].
  - split; [exact Hadd|].
    split; [apply diff_build_returns; lia|].
    split; [rewrite <- Hn'; apply diff_build_returns; lia|].
    intros i Hi. rewrite (Hpt i Hi).
    destruct (scan_from zero (take (n_ d) (diff_ d)) !! i) as [x|]; [|reflexivity].
    simpl. destruct (decide (r <= i /\ i < l)); [|reflexivity].
    f_equal. symmetry. apply minus_as_plus.
Qed.

Lemma sum_of_zeros (n : nat) : sum_of (replicate n (zero : T)) = zero.
Proof.
  induction n as [|n IH]; [reflexivity|].
  change (zero [+] sum_of (replicate n (zero : T)) = zero).
  now rewrite IH, plus_zero_l.
Qed.

Lemma range_add_total (d d' : t T) (l r : nat) (v : T) :
  range_add l r v d = Some (tt, d') ->
  sum_of (diff_ d') = sum_of (diff_ d).
Proof.
  intros Hr. apply range_add_inv in Hr as (dl & dr & Hl & Hr & ->). simpl.
  rewrite <- (plus_zero_l (sum_of (diff_ d))), <- (plus_zero_l (sum_of (<[r := _]> _))).
  rewrite <- !fold_left_sum_of.
  apply (plus_cancel_r _ _ v).
  rewrite (fold_left_insert_minus _ r dr v zero Hr).
  now apply fold_left_insert_plus.
Qed.

(** X14. In every state of an object the entries of the delta table,
    sentinel included, sum to zero. *)
Theorem delta_table_sums_to_zero (d : t T) :
  reachable d -> sum_of (diff_ d) = zero.
Proof.
  induction 1 as [|n d d' _ _ Hr|l r v d d' _ IH Hr].
  - reflexivity.
  - rewrite reset_returns in Hr. injection Hr as <-. simpl. apply sum_of_zeros.
  - rewrite (range_add_total d d' l r v Hr). exact IH.
Qed.

End DiffArrayComposition.

Section PointUpdates.
Context {T : Type} `{AdditiveGroup T}.
Import DiffArray1D.

Lemma point_updates_valid (n : nat) (values : list T) (k : nat) :
  k + length values <= n ->
  Forall (valid_update n) (point_updates_from k values).
Proof.
  revert k. induction values as [|v values IH]; intros k Hk; simpl in *.
  - constructor.
  - constructor; [unfold valid_update; simpl; lia|]. apply IH. lia.
Qed.

Lemma point_updates_miss (values : list T) (k i : nat) :
  i < k -> filter (covers i) (point_updates_from k values) = [].
Proof.
  revert k. induction values as [|v values IH]; intros k Hi; simpl; [reflexivity|].
  rewrite filter_cons_False by (unfold covers; simpl; lia).
  apply IH. lia.
Qed.

Lemma point_updates_hit (values : list T) (k j : nat) (v : T) :
  values !! j = Some v ->
  upd_v <$> filter (covers (k + j)) (point_updates_from k values) = [v].
Proof.
  revert k j. induction values as [|w values IH]; intros k j Hj; [discriminate|].
  destruct j as [|j]; simpl in *.
  - injection Hj as ->.
    rewrite filter_cons_True by (unfold covers; simpl; lia).
    rewrite point_updates_miss by lia. reflexivity.
  - rewrite filter_cons_False by (unfold covers; simpl; lia).
    replace (k + S j) with (S k + j) by lia. now apply IH.
Qed.

(** X17. Writing an array through point updates reads it back: from
    [reset(values.size())], the calls [range_add(i, i + 1, values[i])] for
    every index followed by [build()] return [values]. *)
Theorem point_updates_round_trip (values : list T) (d0 : t T) :
  exists d,
    (let* _ := reset (length values) in
     let* _ := apply_updates (point_updates values) in
     build) d0 = Some (values, d).
Proof.
  set (n := length values).
  destruct (apply_updates_brute_force n (point_updates values) []
              (Build n (replicate (n + 1) zero)))
    as (d & Hrun & Hs & Hn & Hout).
  - unfold sized. simpl. apply length_replicate.
  - reflexivity.
  - apply point_updates_valid. subst n. lia.
  - simpl. now rewrite take_replicate_add, scan_from_zeros, brute_force_nil.
  - exists d. unfold bind at 1. rewrite reset_returns. unfold bind at 1. rewrite Hrun.
    rewrite diff_build_returns by (unfold sized in Hs; lia).
    rewrite Hn, Hout. simpl. do 2 f_equal.
    apply list_eq. intros i.
    destruct (values !! i) as [v|] eqn:Hv.
    + rewrite brute_force_lookup by (apply lookup_lt_Some in Hv; exact Hv).
      pose proof (point_updates_hit values 0 i v Hv) as Hh. simpl in Hh.
      unfold point_updates. rewrite Hh. unfold sum_of. simpl.
      now rewrite plus_zero_r.
    + apply lookup_ge_None_2. rewrite length_brute_force.
      apply lookup_ge_None_1 in Hv. exact Hv.
Qed.

End PointUpdates.

(** ** Instances at [Z] of the further properties *)

(** [range_sum_is_slice_sum]: [range_sum(1, 4)] of [{1, 2, 3, 4, 5}]. *)
Lemma range_sum_is_slice_sum_witness :
  PrefixSum1D.range_sum 1 4 table_1_to_5 = Some (9%Z, table_1_to_5).
Proof.
  refine (range_sum_is_slice_sum [1; 2; 3; 4; 5]%Z PrefixSum1D.default
            table_1_to_5 1 4 eq_refl _ _); simpl; lia.
Defined.

(** [range_sum_single_element]: [range_sum(2, 3)] of [{1, 2, 3, 4, 5}]. *)
Lemma range_sum_single_element_witness :
  PrefixSum1D.range_sum 2 3 table_1_to_5 = Some (3%Z, table_1_to_5).
Proof.
  exact (range_sum_single_element [1; 2; 3; 4; 5]%Z PrefixSum1D.default
           table_1_to_5 2 3%Z eq_refl eq_refl).
Defined.

(** [range_sum_out_of_bounds_iff]: [range_sum(6, 2)] of a size-5 object. *)
Lemma range_sum_out_of_bounds_iff_witness :
  PrefixSum1D.range_sum 6 2 table_1_to_5 = None <-> (5 < 6 \/ 5 < 2).
Proof.
  exact (range_sum_out_of_bounds_iff [1; 2; 3; 4; 5]%Z PrefixSum1D.default
           table_1_to_5 6 2 eq_refl).
Defined.

(** [construct_prefix_sums] at [{1, 2, 3}]. *)
Lemma construct_prefix_sums_witness :
  exists s tbl,
    PrefixSum1D.construct [1; 2; 3]%Z = Some s /\
    PrefixSum1D.size s = Some (3, s) /\
    PrefixSum1D.prefix s = Some (tbl, s) /\
    length tbl = 3 + 1 /\
    forall i, i <= 3 -> tbl !! i = Some (sum_of (take i [1; 2; 3]%Z)).
Proof. exact (construct_prefix_sums [1; 2; 3]%Z). Defined.

(** [build_append_extends]: [{1, 2}] extended by [{3}]. *)
Lemma build_append_extends_witness :
  take 3 [0; 1; 3; 6]%Z = [0; 1; 3]%Z /\
  (0 <= 2 -> 2 <= 2 ->
   fst <$> PrefixSum1D.range_sum 0 2 (PrefixSum1D.Build [0; 1; 3; 6]%Z)
   = fst <$> PrefixSum1D.range_sum 0 2 (PrefixSum1D.Build [0; 1; 3]%Z)).
Proof.
  exact (build_append_extends [1; 2]%Z [3%Z]
           (PrefixSum1D.Build [0; 1; 3]%Z) (PrefixSum1D.Build [0; 1; 3; 6]%Z)
           0 2 eq_refl eq_refl).
Defined.

(** The invariant on the object after one update. *)
Lemma sentinel_invariant_witness :
  (after_one_update = DiffArray1D.default \/
   length (DiffArray1D.diff_ after_one_update) = 5 + 1) /\
  forall l r v d',
    DiffArray1D.range_add l r v after_one_update = Some (tt, d') ->
    DiffArray1D.size d' = Some (5, d') /\
    length (DiffArray1D.diff_ d') = length (DiffArray1D.diff_ after_one_update).
Proof. exact (sentinel_invariant after_one_update reachable_after_one_update). Defined.

(** [range_add_out_of_bounds_iff]: [range_add(6, 0, v)] on a size-5
    object. *)
Lemma range_add_out_of_bounds_iff_witness :
  DiffArray1D.range_add 6 0 1%Z after_one_update = None <-> (5 < 6 \/ 5 < 0).
Proof. exact (range_add_out_of_bounds_iff after_one_update 6 0 1%Z eq_refl). Defined.

(** [diff_build_recurrence] on the object after one update. *)
Lemma diff_build_recurrence_witness :
  exists out,
    DiffArray1D.build after_one_update = Some (out, after_one_update) /\
    length out = 5 /\
    (forall x, 0 < 5 -> DiffArray1D.diff_ after_one_update !! 0 = Some x ->
       out !! 0 = Some (0 + x)%Z) /\
    (forall i x, i + 1 < 5 -> DiffArray1D.diff_ after_one_update !! (i + 1) = Some x ->
       exists y, out !! i = Some y /\ out !! (i + 1) = Some (y + x)%Z).
Proof. refine (diff_build_recurrence after_one_update _). simpl. lia. Defined.

(** [diff_build_is_prefix_table] on the object after one update. *)
Lemma diff_build_is_prefix_table_witness :
  exists out,
    DiffArray1D.build after_one_update = Some (out, after_one_update) /\
    PrefixSum1D.construct [0; 3; 0; 0; -3]%Z = Some (PrefixSum1D.Build (0%Z :: out)).
Proof. exact (diff_build_is_prefix_table after_one_update reachable_after_one_update). Defined.

(** [range_add_empty_interval]: [range_add(2, 2, 9)]. *)
Lemma range_add_empty_interval_witness :
  DiffArray1D.range_add 2 2 9%Z after_one_update = Some (tt, after_one_update).
Proof.
  refine (range_add_empty_interval after_one_update 2 9%Z eq_refl _). simpl. lia.
Defined.

(** [range_add_commute]: [range_add(0, 2, 2)] and [range_add(1, 5, 4)]. *)
Lemma range_add_commute_witness :
  (let* _ := DiffArray1D.range_add 0 2 2%Z in DiffArray1D.range_add 1 5 4%Z)
    after_one_update
  = (let* _ := DiffArray1D.range_add 1 5 4%Z in DiffArray1D.range_add 0 2 2%Z)
      after_one_update.
Proof. exact (range_add_commute after_one_update 0 2 1 5 2%Z 4%Z). Defined.

(** [range_add_adjacent]: [0, 2) and [2, 5) make [0, 5). *)
Lemma range_add_adjacent_witness :
  (let* _ := DiffArray1D.range_add 0 2 7%Z in DiffArray1D.range_add 2 5 7%Z)
    after_one_update
  = DiffArray1D.range_add 0 5 7%Z after_one_update.
Proof.
  refine (range_add_adjacent after_one_update 0 2 5 7%Z eq_refl _). simpl. lia.
Defined.

(** [range_add_same_interval]: 2 and then 4 on [1, 4). *)
Lemma range_add_same_interval_witness :
  (let* _ := DiffArray1D.range_add 1 4 2%Z in DiffArray1D.range_add 1 4 4%Z)
    after_one_update
  = DiffArray1D.range_add 1 4 (2 + 4)%Z after_one_update.
Proof. exact (range_add_same_interval after_one_update 1 4 2%Z 4%Z). Defined.

(** [range_add_undo]: 3 and then -3 on [1, 4). *)
Lemma range_add_undo_witness :
  (let* _ := DiffArray1D.range_add 1 4 3%Z in DiffArray1D.range_add 1 4 (0 - 3)%Z)
    after_one_update
  = Some (tt, after_one_update).
Proof.
  refine (range_add_undo after_one_update 1 4 3%Z eq_refl _ _); simpl; lia.
Defined.

(** [range_add_reversed]: [range_add(4, 1, 3)] on a size-5 object. *)
Lemma range_add_reversed_witness :
  exists d' out out',
    DiffArray1D.range_add 4 1 3%Z after_one_update = Some (tt, d') /\
    DiffArray1D.range_add 1 4 (0 - 3)%Z after_one_update = Some (tt, d') /\
    DiffArray1D.build after_one_update = Some (out, after_one_update) /\
    DiffArray1D.build d' = Some (out', d') /\
    forall i, i < 5 ->
      out' !! i = (fun x => if decide (1 <= i /\ i < 4) then (x - 3)%Z else x) <$> out !! i.
Proof.
  refine (range_add_reversed after_one_update 4 1 3%Z eq_refl _ _); simpl; lia.
Defined.

(** [delta_table_sums_to_zero] on the object after one update. *)
Lemma delta_table_sums_to_zero_witness :
  sum_of (DiffArray1D.diff_ after_one_update) = 0%Z.
Proof. exact (delta_table_sums_to_zero after_one_update reachable_after_one_update). Defined.

(** [point_updates_round_trip] at [{4, -1, 7}]. *)
Lemma point_updates_round_trip_witness :
  exists d,
    (let* _ := DiffArray1D.reset 3 in
     let* _ := apply_updates (point_updates [4; -1; 7]%Z) in
     DiffArray1D.build) DiffArray1D.default = Some ([4; -1; 7]%Z, d).
Proof. exact (point_updates_round_trip [4; -1; 7]%Z DiffArray1D.default). Defined.

(** * [reset] in [std::size_t] *)

Section SizeTFacts.
Context {T : Type} `{Numeric T}.
Import DiffArray1D.







(** C4, at the default-constructed object. It has [size() = 0], so the
    full range is [0, 0), and [range_add(0, 0, v)] reads [diff_[0]] of an
    empty vector: no [build()] follows. *)
Theorem full_range_add_default_out_of_bounds (v : T) :
  reachable (default (T:=T)) /\
  SizeT.reachable (default (T:=T)) /\
  size (T:=T) default = Some (0, default) /\
  range_add 0 0 v default = None /\
  (let* _ := range_add 0 0 v in build) default = None.
Proof. repeat split; constructor. Qed.


End SizeTFacts.

(** ** Instances at [Z] for [reset] in [std::size_t] *)





